(** * NumInfo: field normalisation, result dispatch and the lookup boundary

    A shallow embedding of the helpers of [app.py]
    ([mock_lookup], [call_api], [auto_map_fields],
    [handle_multiple_results]) and of the guarded lookup block that
    calls them, together with the properties the specification states
    about them.

    Python dictionaries are used here purely as finite maps from string
    keys to values, so they are modelled as [gmap string value]; Python
    lists are [list value]. *)

From Stdlib Require Import ZArith SpecFloat.
From stdpp Require Import gmap strings list fin_maps.

Local Set Warnings "-register-all".
Local Open Scope string_scope.

(** ** Values

    The payloads handled by the program are what [response.json()] can
    produce, plus the strings of the mock records: [None], booleans,
    integers, floats, strings, lists and string-keyed dictionaries. *)

Inductive value : Type :=
  | VNone
  | VBool (b : bool)
  | VInt (n : Z)
  | VFloat (f : spec_float)
  | VStr (s : string)
  | VList (l : list value)
  | VDict (d : gmap string value).

(** Python truth value testing, as used by [data[k]] in a condition and
    by [if others:]. *)
Definition truthy (v : value) : bool :=
  match v with
  | VNone => false
  | VBool b => b
  | VInt n => negb (n =? 0)%Z
  | VFloat f => match f with S754_zero _ => false | _ => true end
  | VStr s => negb (String.eqb s "")
  | VList l => match l with [] => false | _ :: _ => true end
  | VDict d => negb (bool_decide (d = ∅))
  end.

(** ** Field Mapper: [auto_map_fields] *)

Module FieldMapper.

(** The local dictionary [mapping]; iteration over [mapping.items()]
    follows insertion order, so the table is kept as a list. *)
Definition mapping : list (string * list string) :=
  [ ("name",    ["name"; "fullname"; "user"]);
    ("mobile",  ["mobile"; "phone"; "number"]);
    ("email",   ["email"; "mail"]);
    ("address", ["address"; "location"]) ].

(** The inner loop [for k in keys: if k in data and data[k]: ... break]:
    the value the slot receives, if any. *)
Fixpoint first_truthy (data : gmap string value) (keys : list string)
  : option value :=
  match keys with
  | [] => None
  | k :: ks =>
      match data !! k with
      | Some v => if truthy v then Some v else first_truthy data ks
      | None => first_truthy data ks
      end
  end.

(** One iteration of the outer loop, [mapped[out_key] = data[k]] when the
    inner loop found a key. *)
Definition map_slot (data : gmap string value)
    (mapped : gmap string value) (entry : string * list string)
  : gmap string value :=
  match first_truthy data entry.2 with
  | Some v => <[entry.1 := v]> mapped
  | None => mapped
  end.

(** The outer loop, started from [mapped = {}]. *)
Definition map_slots (data : gmap string value) : gmap string value :=
  fold_left (map_slot data) mapping ∅.

(** [[key for keys in mapping.values() for key in keys]] *)
Definition alias_keys : list string :=
  flat_map (λ entry : string * list string, entry.2) mapping.

(** [{k: v for k, v in data.items() if k not in alias_keys}] *)
Definition others_of (data : gmap string value) : gmap string value :=
  filter (λ kv : string * value, kv.1 ∉ alias_keys) data.

Definition auto_map_fields (data : value) : gmap string value :=
  match data with
  | VDict d =>
      let mapped := map_slots d in
      let others := others_of d in
      if truthy (VDict others) then <["others" := VDict others]> mapped
      else mapped
  | _ => {["raw" := data]}
  end.

End FieldMapper.

Import FieldMapper.

(** ** Result Normalizer: [handle_multiple_results] *)

Module Normalizer.

(** The element expression of the three comprehensions,
    [auto_map_fields(item) if auto_map else item].  The module-level
    flag [auto_map] (a sidebar checkbox) is passed explicitly. *)
Definition map_item (auto_map : bool) (item : value) : value :=
  if auto_map then VDict (auto_map_fields item) else item.

Definition handle_multiple_results (auto_map : bool) (result : value)
  : list value :=
  match result with
  | VList l => map (map_item auto_map) l
  | VDict d =>
      match d !! "results" with
      | Some (VList l) => map (map_item auto_map) l
      | _ => [map_item auto_map result]
      end
  | _ => [map_item auto_map result]
  end.

(** The payloads left for the last branch: neither a list nor a
    dictionary holding a list under [results]. *)
Definition single_record (result : value) : Prop :=
  (∀ l, result ≠ VList l) ∧
  (∀ d l, result = VDict d → d !! "results" ≠ Some (VList l)).

End Normalizer.

Import Normalizer.

(** ** Lookup Client: [mock_lookup], [call_api] and the guarded block *)

Module Lookup.

Definition API_URL : string := "https://decryptkarnrwalebkl.wasmer.app/".
Definition TERM_PARAM : string := "term".
Definition KEY_PARAM : string := "key".

(** What the program reads from a [requests] response object: the
    attributes [status_code] and [text], and the outcome of calling
    [response.json()].  That call returns the parsed body, raises a
    [ValueError] on a body that is not JSON, or raises something that is
    not a [ValueError] (a [RecursionError] on a deeply nested body, for
    one).

    Exceptions are those deriving from [Exception], split the way the
    two handlers of the lookup block split them.  A [RequestException]
    carries the attribute [response], which may be [None]. *)
Inductive Response : Type :=
  | mkResponse (status_code : Z) (text : string) (json : json_outcome)
with json_outcome : Type :=
  | JsonParsed (parsed : value)
  | JsonValueError
  | JsonRaises (e : exn)
with exn : Type :=
  | RequestException (message : string) (response : option Response)
  | OtherException (message : string).

Definition status_code (response : Response) : Z :=
  match response with mkResponse status_code _ _ => status_code end.

Definition text (response : Response) : string :=
  match response with mkResponse _ text _ => text end.

Definition json (response : Response) : json_outcome :=
  match response with mkResponse _ _ json => json end.

(** [str(e)] *)
Definition str (e : exn) : string :=
  match e with
  | RequestException message _ => message
  | OtherException message => message
  end.

(** Effects of the lookup block that are visible from outside. *)
Inductive event : Type :=
  | EvGet (url : string) (params : gmap string value) (timeout : Z)
  | EvSleep (millis : Z).

(** Computations that may raise and that extend the trace of events. *)
Definition io (A : Type) : Type := list event → (exn + A) * list event.

#[export] Instance io_ret : MRet io := λ A (a : A) tr, (inr a, tr).

#[export] Instance io_bind : MBind io := λ A B (f : A → io B) (m : io A) tr,
  match m tr with
  | (inr a, tr') => f a tr'
  | (inl e, tr') => (inl e, tr')
  end.

Definition io_lift {A} (r : exn + A) : io A := λ tr, (r, tr).

(** [try: body except ... as e: handler e] *)
Definition io_try {A} (body : io A) (handler : exn → io A) : io A :=
  λ tr, match body tr with
        | (inr a, tr') => (inr a, tr')
        | (inl e, tr') => handler e tr'
        end.

(** [time.sleep(0.2)] *)
Definition sleep (millis : Z) : io unit :=
  λ tr, (inr tt, (tr ++ [EvSleep millis])%list).

(** List subscription [l[i]], with Python's negative indices and its
    [IndexError]. *)
Definition subscript {A} (l : list A) (i : Z) : exn + A :=
  let n := Z.of_nat (length l) in
  let j := if (i <? 0)%Z then (i + n)%Z else i in
  if (j <? 0)%Z then inl (OtherException "list index out of range")
  else match l !! Z.to_nat j with
       | Some a => inr a
       | None => inl (OtherException "list index out of range")
       end.

Section client.

(** [os.getenv("API_KEY", None)] *)
Variable API_KEY : option string.

(** The builtin [hash] on strings: some function that is fixed for the
    lifetime of the process. *)
Variable hash : string → Z.

(** The remote side: what [requests.get] does for a request, which may
    depend on everything that happened before. *)
Variable network :
  list event → string → gmap string value → Z → exn + Response.

Definition samples (term_value : string) : list (gmap string value) :=
  [ <["email" := VStr "rahul.k@example.com"]>
      (<["mobile" := VStr term_value]> {["name" := VStr "Rahul Kumar"]});
    <["email" := VStr "priya.sh@example.com"]>
      (<["mobile" := VStr term_value]> {["name" := VStr "Priya Sharma"]});
    <["note" := VStr "No data"]>
      (<["mobile" := VStr term_value]> {["name" := VStr "Unknown"]}) ].

Definition mock_lookup (term_value : string) : exn + gmap string value :=
  let samples := samples term_value in
  subscript samples (hash term_value `mod` Z.of_nat (length samples))%Z.

(** [{KEY_PARAM: API_KEY, TERM_PARAM: term_value}] *)
Definition params (term_value : string) : gmap string value :=
  <[TERM_PARAM := VStr term_value]>
    {[KEY_PARAM := match API_KEY with Some key => VStr key | None => VNone end]}.

Definition requests_get (url : string) (params : gmap string value)
    (timeout : Z) : io Response :=
  λ tr, (network tr url params timeout, (tr ++ [EvGet url params timeout])%list).

Definition call_api (term_value : string) (timeout : Z) : io (value * Z) :=
  response ← requests_get API_URL (params term_value) timeout;
  let status := status_code response in
  data ← match json response with
         | JsonParsed parsed => mret parsed
         | JsonValueError => mret (VDict {["text" := VStr (text response)]})
         | JsonRaises e => io_lift (inl e)
         end;
  mret (data, status).

(** The [try] statement of the lookup block: it leaves [raw_result] and
    [status] behind. *)
Definition fetch (use_mock : bool) (term : string) (timeout : Z)
  : io (value * option Z) :=
  io_try
    (r ← (if use_mock
          then raw_result ← io_lift (mock_lookup term);
               mret (VDict raw_result, Some 200%Z)
          else '(raw_result, status) ← call_api term timeout;
               mret (raw_result, Some status));
     _ ← sleep 200;
     mret r)
    (λ e, match e with
          | RequestException _ response =>
              mret (VDict {["error" := VStr (str e)]},
                    status_code <$> response)
          | OtherException _ =>
              mret (VDict {["error" := VStr (str e)]}, None)
          end).

(** What one lookup action leaves for the presentation layer. *)
Record LookupResult : Type := mkLookupResult {
  results : list value;
  raw_result : value;
  status : option Z
}.

(** The block under [if lookup:]; an empty term only shows a message and
    issues no request. *)
Definition lookup_action (use_mock auto_map : bool) (term : string)
    (timeout : Z) : io (option LookupResult) :=
  if String.eqb term "" then mret None
  else '(raw, st) ← fetch use_mock term timeout;
       mret (Some (mkLookupResult
                       (handle_multiple_results auto_map raw) raw st)).

End client.

End Lookup.

Import Lookup.

(** ** The script around the helpers: credential check and lookup block *)

Module Script.

(** The sidebar test [not API_KEY and not use_mock]; an unset variable
    and an empty one are both falsy. *)
Definition credential_missing (API_KEY : option string) (use_mock : bool)
  : bool :=
  negb (match API_KEY with
        | Some key => negb (String.eqb key "")
        | None => false
        end)
  && negb use_mock.

(** How one run of the script ends, as far as the lookup is concerned:
    [st.stop()] after the credential error, no click on the button, or
    the lookup block (whose result is [None] for an empty term). *)
Inductive script_outcome : Type :=
  | Stopped
  | Idle
  | Finished (result : option LookupResult).

Definition script (API_KEY : option string) (hash : string → Z)
    (network : list event → string → gmap string value → Z → exn + Response)
    (use_mock auto_map lookup : bool) (term : string) (timeout : Z)
  : io script_outcome :=
  if credential_missing API_KEY use_mock then mret Stopped
  else if lookup
       then result ← lookup_action API_KEY hash network use_mock auto_map
                       term timeout;
            mret (Finished result)
       else mret Idle.

(** Whether an event is a request. *)
Definition is_get (ev : event) : bool :=
  match ev with
  | EvGet _ _ _ => true
  | EvSleep _ => false
  end.

End Script.

Import Script.

(** ** Presentation of a single result (the [else] branch of the
    results tab) *)

Module Rendering.

(** The Python errors the branch can end in; none of them is caught. *)
Inductive render_error : Type :=
  | IndexError
  | KeyError
  | TypeError
  | AttributeError.

(** The calls made to the user interface.  A card stands for the
    [st.markdown] call with the card template filled with the key and
    the value; its column is the one entered by [with cols[i % 2]]. *)
Inductive ui_event : Type :=
  | UiColumns (n : nat)
  | UiCard (column : nat) (key : string) (val : value)
  | UiMore
  | UiJson (val : value).

Definition ui (A : Type) : Type :=
  list ui_event → (render_error + A) * list ui_event.

#[export] Instance ui_ret : MRet ui := λ A (a : A) shown, (inr a, shown).

#[export] Instance ui_bind : MBind ui :=
  λ A B (f : A → ui B) (m : ui A) shown,
  match m shown with
  | (inr a, shown') => f a shown'
  | (inl e, shown') => (inl e, shown')
  end.

Definition ui_lift {A} (r : render_error + A) : ui A := λ shown, (r, shown).

Definition emit (ev : ui_event) : ui unit :=
  λ shown, (inr tt, (shown ++ [ev])%list).

(** [key in display], for a string [key]: key membership in a
    dictionary, substring test in a string, element test in a list, and
    a [TypeError] for the values that are not containers. *)
Definition contains (key : string) (display : value) : render_error + bool :=
  match display with
  | VDict d => inr (bool_decide (is_Some (d !! key)))
  | VStr s =>
      inr (match String.index 0 key s with Some _ => true | None => false end)
  | VList l =>
      inr (existsb (λ item, match item with
                            | VStr s => String.eqb s key
                            | _ => false
                            end) l)
  | _ => inl TypeError
  end.

(** [display.get(key, default)]: only dictionaries have the method. *)
Definition get (display : value) (key : string) (default : value)
  : render_error + value :=
  match display with
  | VDict d => inr (from_option id default (d !! key))
  | _ => inl AttributeError
  end.

(** [display[key]], for a string [key]. *)
Definition getitem (display : value) (key : string) : render_error + value :=
  match display with
  | VDict d =>
      match d !! key with
      | Some v => inr v
      | None => inl KeyError
      end
  | _ => inl TypeError
  end.

(** [for i, key in enumerate(keys): if key in display: ...], from
    position [i] on. *)
Fixpoint render_cards (i : nat) (keys : list string) (display : value)
  : ui unit :=
  match keys with
  | [] => mret tt
  | key :: rest =>
      present ← ui_lift (contains key display);
      _ ← (if present : bool
           then val ← ui_lift (get display key (VStr "N/A"));
                emit (UiCard (i `mod` 2) key val)
           else mret tt);
      render_cards (S i) rest display
  end.

(** [if "others" in display: with st.expander("More"): st.json(...)] *)
Definition render_more (display : value) : ui unit :=
  present ← ui_lift (contains "others" display);
  if present : bool
  then _ ← emit UiMore;
       val ← ui_lift (getitem display "others");
       emit (UiJson val)
  else mret tt.

(** The test [len(results) > 1] that selects the other branch. *)
Definition multiple (results : list value) : bool :=
  bool_decide (1 < length results).

(** The branch taken when [len(results) > 1] is false, starting with
    [display = results[0]]. *)
Definition render_single (results : list value) : ui unit :=
  match results with
  | [] => ui_lift (inl IndexError)
  | display :: _ =>
      _ ← emit (UiColumns 2);
      _ ← render_cards 0 ["name"; "mobile"; "email"; "address"] display;
      render_more display
  end.

End Rendering.

Import Rendering.

(** ** Concrete inputs used below *)

Definition falsy_mobile_record : gmap string value :=
  <["phone" := VStr "123"]> {["mobile" := VStr ""]}.

Definition falsy_phone_record : gmap string value :=
  <["number" := VStr "555"]> {["phone" := VStr ""]}.

Definition phone_and_city_record : gmap string value :=
  <["city" := VStr "Pune"]> {["phone" := VStr "123"]}.

Definition fullname_and_user_record : gmap string value :=
  <["user" := VStr "rk"]> {["fullname" := VStr "Rahul Kumar"]}.

Definition all_falsy_record : gmap string value :=
  <["phone" := VInt 0]> {["name" := VStr ""]}.

Definition canonical_without_others : gmap string value :=
  <["email" := VStr "a@b.c"]> {["name" := VStr "A"]}.

Definition unrecognised_record : gmap string value :=
  <["age" := VInt 30]> {["city" := VStr "Pune"]}.

Definition wrapped_with_metadata : gmap string value :=
  <["name" := VStr "ignored"]>
    {["results" := VList [VDict {["mail" := VStr "a@b.c"]}]]}.



Definition wrapped_empty_payload : value :=
  VDict (<["count" := VInt 0]> {["results" := VList []]}).

Definition results_not_a_list_payload : value :=
  VDict {["results" := VStr "none"]}.

(** A remote side that never answers in time. *)
Definition timing_out_network
  : list event → string → gmap string value → Z → exn + Response :=
  λ _ _ _ _, inl (RequestException "Read timed out." None).

(** A remote side that answers 200 with a body nested too deeply for
    the JSON decoder. *)
Definition deeply_nested_response : Response :=
  mkResponse 200 "[[[[[[[[ ... ]]]]]]]]"
    (JsonRaises (OtherException "maximum recursion depth exceeded")).

Definition deeply_nested_network
  : list event → string → gmap string value → Z → exn + Response :=
  λ _ _ _ _, inr deeply_nested_response.

(** A remote side that answers 502 with an HTML body. *)
Definition bad_gateway_response : Response :=
  mkResponse 502 "<html>Bad Gateway</html>" JsonValueError.

Definition html_network
  : list event → string → gmap string value → Z → exn + Response :=
  λ _ _ _ _, inr bad_gateway_response.

(** ** Facts about the Field Mapper *)

Section field_mapper_facts.
Implicit Types (d mapped : gmap string value) (k : string) (v : value).

(** What a lookup sees after the outer loop: the four slots are
    assigned independently, each from the scan of its own alias list,
    and no other key is ever assigned. *)
Lemma map_slots_lookup d k :
  map_slots d !! k =
  if decide (k = "name") then first_truthy d ["name"; "fullname"; "user"]
  else if decide (k = "mobile")
       then first_truthy d ["mobile"; "phone"; "number"]
  else if decide (k = "email") then first_truthy d ["email"; "mail"]
  else if decide (k = "address")
       then first_truthy d ["address"; "location"]
  else None.
Proof.
  unfold map_slots, mapping. cbn [fold_left]. unfold map_slot.
  cbn [fst snd].
  generalize (first_truthy d ["name"; "fullname"; "user"]),
    (first_truthy d ["mobile"; "phone"; "number"]),
    (first_truthy d ["email"; "mail"]),
    (first_truthy d ["address"; "location"]).
  intros o1 o2 o3 o4.
  destruct o1, o2, o3, o4; repeat case_decide; simplify_map_eq; done.
Qed.

Lemma auto_map_fields_lookup_slot d k :
  k ≠ "others" → auto_map_fields (VDict d) !! k = map_slots d !! k.
Proof.
  intros Hk. unfold auto_map_fields. cbv zeta.
  destruct (truthy (VDict (others_of d))); [|done].
  by rewrite lookup_insert_ne.
Qed.

(** The scan of one alias list stops at the first key that is present
    with a truthy value. *)
Lemma first_truthy_head d k keys v :
  d !! k = Some v → truthy v = true → first_truthy d (k :: keys) = Some v.
Proof. intros Hk Hv. cbn [first_truthy]. by rewrite Hk, Hv. Qed.

Lemma first_truthy_skip_absent d k keys :
  d !! k = None → first_truthy d (k :: keys) = first_truthy d keys.
Proof. intros Hk. cbn [first_truthy]. by rewrite Hk. Qed.

Lemma first_truthy_skip_falsy d k keys v :
  d !! k = Some v → truthy v = false →
  first_truthy d (k :: keys) = first_truthy d keys.
Proof. intros Hk Hv. cbn [first_truthy]. by rewrite Hk, Hv. Qed.

Lemma first_truthy_none d keys :
  (∀ k, k ∈ keys → d !! k = None) → first_truthy d keys = None.
Proof.
  induction keys as [|k keys IH]; intros Habs; [done|].
  rewrite first_truthy_skip_absent by (apply Habs; left).
  apply IH. intros k' Hk'. apply Habs. by right.
Qed.

(** Whatever the scan returns is the value stored under one of the
    scanned keys, and it is truthy. *)
Lemma first_truthy_some d keys v :
  first_truthy d keys = Some v →
  ∃ k, k ∈ keys ∧ d !! k = Some v ∧ truthy v = true.
Proof.
  induction keys as [|k keys IH]; [done|]. cbn [first_truthy].
  destruct (d !! k) as [w|] eqn:Hk.
  - destruct (truthy w) eqn:Hw.
    + intros [= <-]. exists k. split; [left|done].
    + intros (k' & ? & ?)%IH. exists k'. split; [by right|done].
  - intros (k' & ? & ?)%IH. exists k'. split; [by right|done].
Qed.

Lemma auto_map_fields_mobile d :
  auto_map_fields (VDict d) !! "mobile" =
  first_truthy d ["mobile"; "phone"; "number"].
Proof.
  rewrite auto_map_fields_lookup_slot by done.
  rewrite map_slots_lookup. by repeat case_decide.
Qed.

(** The comprehension that builds [others]. *)
Lemma others_of_lookup d k :
  others_of d !! k = if decide (k ∈ alias_keys) then None else d !! k.
Proof.
  unfold others_of. case_decide as Hk.
  - apply map_lookup_filter_None. right. intros v _. cbn. tauto.
  - destruct (d !! k) as [v|] eqn:Hd.
    + by apply map_lookup_filter_Some.
    + apply map_lookup_filter_None. by left.
Qed.

Lemma truthy_dict_nonempty d : truthy (VDict d) = true ↔ d ≠ ∅.
Proof.
  cbn. rewrite negb_true_iff, bool_decide_eq_false. done.
Qed.

Lemma auto_map_fields_others d :
  auto_map_fields (VDict d) !! "others" =
  if decide (others_of d = ∅) then None else Some (VDict (others_of d)).
Proof.
  unfold auto_map_fields. cbv zeta.
  destruct (truthy (VDict (others_of d))) eqn:Ht.
  - apply truthy_dict_nonempty in Ht. rewrite decide_False by done.
    by rewrite lookup_insert_eq.
  - rewrite decide_True.
    + rewrite map_slots_lookup. by repeat case_decide.
    + destruct (decide (others_of d = ∅)) as [|Hne]; [done|].
      apply truthy_dict_nonempty in Hne. congruence.
Qed.

Lemma slot_aliases_are_alias_keys slot keys k :
  (slot, keys) ∈ mapping → k ∈ keys → k ∈ alias_keys.
Proof.
  intros Hslot Hk. unfold alias_keys.
  apply list_elem_of_In, in_flat_map. exists (slot, keys).
  split; by apply list_elem_of_In.
Qed.

Lemma slot_names_are_alias_keys slot keys :
  (slot, keys) ∈ mapping → slot ∈ alias_keys.
Proof.
  unfold mapping. rewrite !elem_of_cons, elem_of_nil.
  intros [[= -> _]|[[= -> _]|[[= -> _]|[[= -> _]|[]]]]];
    apply list_elem_of_In; cbn; tauto.
Qed.

(** A record without any alias key leaves every slot unassigned. *)
Lemma map_slots_unrecognised d :
  (∀ k, k ∈ alias_keys → d !! k = None) → map_slots d = ∅.
Proof.
  intros Habs. apply map_eq. intros k.
  rewrite map_slots_lookup, lookup_empty.
  repeat case_decide; try done; apply first_truthy_none; intros k' Hk';
    apply Habs; rewrite !elem_of_cons, elem_of_nil in Hk';
    destruct_or!; try done; subst k'; apply list_elem_of_In; cbn; tauto.
Qed.

Lemma others_of_unrecognised d :
  (∀ k, k ∈ alias_keys → d !! k = None) → others_of d = d.
Proof.
  intros Habs. apply map_eq. intros k. rewrite others_of_lookup.
  case_decide; [by rewrite Habs|done].
Qed.

(** ** The properties of the Field Mapper *)

(** C1, as amended.  The [mobile] slot holds the result of scanning
    [mobile], [phone], [number] in this order for the first key that is
    present with a truthy value.  Hence, for a record that contains both
    [mobile] and [phone] and whose [mobile] value is truthy, the mapped
    [mobile] is the input's [mobile] value, whatever the other aliases
    hold. *)
Theorem mobile_wins_over_phone_when_truthy d :
  auto_map_fields (VDict d) !! "mobile" =
    first_truthy d ["mobile"; "phone"; "number"] ∧
  ∀ m p, d !! "mobile" = Some m → d !! "phone" = Some p →
         truthy m = true →
         auto_map_fields (VDict d) !! "mobile" = Some m.
Proof.
  split; [apply auto_map_fields_mobile|].
  intros m p Hm _ Htruthy. rewrite auto_map_fields_mobile.
  by apply first_truthy_head.
Qed.

Lemma mobile_wins_over_phone_when_truthy_witness :
  auto_map_fields
    (VDict (<["phone" := VStr "123"]> {["mobile" := VStr "987"]}))
    !! "mobile" = Some (VStr "987").
Proof.
  apply (proj2 (mobile_wins_over_phone_when_truthy
                  (<["phone" := VStr "123"]> {["mobile" := VStr "987"]}))
           (VStr "987") (VStr "123"));
    vm_compute; reflexivity.
Defined.

(** C1 as stated fails: the record [{"mobile": "", "phone": "123"}]
    contains both keys, yet the mapped [mobile] is the [phone] value. *)
Lemma mobile_not_kept_when_falsy :
  falsy_mobile_record !! "mobile" = Some (VStr "") ∧
  falsy_mobile_record !! "phone" = Some (VStr "123") ∧
  auto_map_fields (VDict falsy_mobile_record) !! "mobile"
    = Some (VStr "123") ∧
  auto_map_fields (VDict falsy_mobile_record) !! "mobile"
    ≠ falsy_mobile_record !! "mobile".
Proof. repeat split; vm_compute; (reflexivity || discriminate). Qed.

(** C5, as amended.  For a record that has no [mobile] key and whose
    [phone] value is truthy, the mapped [mobile] is the input's [phone]
    value. *)
Theorem phone_fills_mobile_when_truthy d p :
  d !! "mobile" = None → d !! "phone" = Some p → truthy p = true →
  auto_map_fields (VDict d) !! "mobile" = Some p.
Proof.
  intros Hm Hp Htruthy. rewrite auto_map_fields_mobile.
  rewrite first_truthy_skip_absent by done. by apply first_truthy_head.
Qed.

Lemma phone_fills_mobile_when_truthy_witness :
  auto_map_fields (VDict {["phone" := VStr "123"]}) !! "mobile"
  = Some (VStr "123").
Proof.
  apply (phone_fills_mobile_when_truthy {["phone" := VStr "123"]});
    vm_compute; reflexivity.
Defined.

(** C5 as stated fails: the record [{"phone": "", "number": "555"}] has
    [phone] and no [mobile], yet the mapped [mobile] is the [number]
    value. *)
Lemma phone_not_used_when_falsy :
  falsy_phone_record !! "mobile" = None ∧
  falsy_phone_record !! "phone" = Some (VStr "") ∧
  auto_map_fields (VDict falsy_phone_record) !! "mobile"
    = Some (VStr "555") ∧
  auto_map_fields (VDict falsy_phone_record) !! "mobile"
    ≠ falsy_phone_record !! "phone".
Proof. repeat split; vm_compute; (reflexivity || discriminate). Qed.

(** C2.  Every input key outside the alias lists is found, with its
    value, in the [others] mapping of the result; the [others] mapping
    holds no alias key, whether the key was selected for a slot or not;
    so a key of [others] is neither a slot name nor a key that was
    promoted to a slot. *)
Theorem others_holds_exactly_the_unaliased_keys d :
  (∀ k v, k ∉ alias_keys → d !! k = Some v →
     ∃ o, auto_map_fields (VDict d) !! "others" = Some (VDict o) ∧
          o !! k = Some v) ∧
  (∀ k o, k ∈ alias_keys →
     auto_map_fields (VDict d) !! "others" = Some (VDict o) →
     o !! k = None) ∧
  (∀ k o, auto_map_fields (VDict d) !! "others" = Some (VDict o) →
     is_Some (o !! k) →
     ∀ slot keys, (slot, keys) ∈ mapping → k ≠ slot ∧ k ∉ keys).
Proof.
  assert (Hothers : ∀ o,
    auto_map_fields (VDict d) !! "others" = Some (VDict o) →
    o = others_of d).
  { intros o. rewrite auto_map_fields_others.
    case_decide; [done|]. by intros [= <-]. }
  split_and!.
  - intros k v Hk Hd. exists (others_of d).
    assert (Hlook : others_of d !! k = Some v).
    { rewrite others_of_lookup. by rewrite decide_False. }
    split; [|done]. rewrite auto_map_fields_others.
    rewrite decide_False; [done|]. intros He.
    by rewrite He, lookup_empty in Hlook.
  - intros k o Hk ->%Hothers. rewrite others_of_lookup.
    by rewrite decide_True.
  - intros k o ->%Hothers [v Hv] slot keys Hslot.
    rewrite others_of_lookup in Hv. case_decide as Hk; [done|].
    split.
    + intros ->. apply Hk. by eapply slot_names_are_alias_keys.
    + intros Hin. apply Hk. by eapply slot_aliases_are_alias_keys.
Qed.

Lemma others_holds_exactly_the_unaliased_keys_witness :
  ∃ o, auto_map_fields (VDict phone_and_city_record) !! "others"
         = Some (VDict o) ∧
       o !! "city" = Some (VStr "Pune").
Proof.
  apply (proj1 (others_holds_exactly_the_unaliased_keys
                  phone_and_city_record) "city" (VStr "Pune")).
  - intros Hin%list_elem_of_In. vm_compute in Hin. intuition discriminate.
  - vm_compute. reflexivity.
Defined.

(** C6, as amended.  A non-empty record none of whose keys is an alias
    is mapped to the record whose only key is [others], bound to the
    whole input; the empty record is mapped to the empty record, which
    has no [others] key. *)
Theorem unrecognised_record_goes_to_others :
  (∀ d, d ≠ ∅ → (∀ k, is_Some (d !! k) → k ∉ alias_keys) →
        auto_map_fields (VDict d) = {["others" := VDict d]}) ∧
  auto_map_fields (VDict ∅) = ∅.
Proof.
  split.
  - intros d Hne Hkeys.
    assert (Habs : ∀ k, k ∈ alias_keys → d !! k = None).
    { intros k Hk. destruct (d !! k) as [v|] eqn:Hd; [|done].
      destruct (Hkeys k); [by eexists|done]. }
    unfold auto_map_fields. cbv zeta.
    rewrite others_of_unrecognised, map_slots_unrecognised by done.
    apply truthy_dict_nonempty in Hne. rewrite Hne. done.
  - vm_compute. reflexivity.
Qed.

Lemma unrecognised_record_goes_to_others_witness :
  auto_map_fields (VDict unrecognised_record)
  = {["others" := VDict unrecognised_record]}.
Proof.
  apply (proj1 unrecognised_record_goes_to_others unrecognised_record).
  - vm_compute. discriminate.
  - intros k [v Hv] Hin%list_elem_of_In.
    cbn in Hin. unfold unrecognised_record in Hv.
    destruct_or!; try done; subst k; vm_compute in Hv; discriminate.
Defined.

(** C6 as stated fails on the empty record: the result has no [others]
    key at all. *)
Lemma empty_record_has_no_others :
  (∀ k, is_Some ((∅ : gmap string value) !! k) → k ∉ alias_keys) ∧
  auto_map_fields (VDict ∅) !! "others" = None ∧
  auto_map_fields (VDict ∅) ≠ {["others" := VDict ∅]}.
Proof.
  split_and!.
  - intros k [v Hv]. by rewrite lookup_empty in Hv.
  - vm_compute. reflexivity.
  - vm_compute. discriminate.
Qed.

End field_mapper_facts.

(** ** The properties of the Result Normalizer *)

Section normalizer_facts.
Implicit Types (d : gmap string value) (l : list value) (r : value).

Lemma handle_list auto_map l :
  handle_multiple_results auto_map (VList l) = map (map_item auto_map) l.
Proof. reflexivity. Qed.

Lemma handle_wrapped auto_map d l :
  d !! "results" = Some (VList l) →
  handle_multiple_results auto_map (VDict d) = map (map_item auto_map) l.
Proof. intros Hres. cbn. by rewrite Hres. Qed.

Lemma handle_single auto_map r :
  single_record r →
  handle_multiple_results auto_map r = [map_item auto_map r].
Proof.
  intros [Hlist Hwrapped]. destruct r as [| | | | |l|d]; try done.
  - by destruct (Hlist l).
  - cbn. destruct (d !! "results") as [[| | | | |l|]|] eqn:Hres; try done.
    by destruct (Hwrapped d l).
Qed.

Lemma map_item_off l : map (map_item false) l = l.
Proof. apply map_id. Qed.

(** C3.  The payload shape is inspected in a fixed order: a list gives
    one record per element; otherwise a dictionary with a list under
    [results] gives one record per element of that list; otherwise the
    payload is the only record.  Elements keep their position and their
    number, and [{"results": [{"phone": "123"}]}] is normalised to
    [[{"mobile": "123"}]] when fields are mapped. *)
Theorem handle_multiple_results_dispatch auto_map :
  (∀ l, handle_multiple_results auto_map (VList l)
        = map (map_item auto_map) l) ∧
  (∀ d l, d !! "results" = Some (VList l) →
          handle_multiple_results auto_map (VDict d)
          = map (map_item auto_map) l) ∧
  (∀ r, single_record r →
        handle_multiple_results auto_map r = [map_item auto_map r]) ∧
  (∀ l i, handle_multiple_results auto_map (VList l) !! i
          = map_item auto_map <$> l !! i) ∧
  (∀ d l i, d !! "results" = Some (VList l) →
            handle_multiple_results auto_map (VDict d) !! i
            = map_item auto_map <$> l !! i) ∧
  handle_multiple_results true
    (VDict {["results" := VList [VDict {["phone" := VStr "123"]}]]})
  = [VDict {["mobile" := VStr "123"]}].
Proof.
  split_and!.
  - apply handle_list.
  - apply handle_wrapped.
  - apply handle_single.
  - intros l i. rewrite handle_list. apply list_lookup_fmap.
  - intros d l i Hres. rewrite (handle_wrapped _ _ _ Hres).
    apply list_lookup_fmap.
  - vm_compute. reflexivity.
Qed.

Lemma handle_multiple_results_dispatch_witness :
  handle_multiple_results true
    (VDict (<["count" := VInt 2]>
              {["results" := VList [VStr "a"; VDict {["mail" := VStr "b"]}]]}))
  = [VDict {["raw" := VStr "a"]}; VDict {["email" := VStr "b"]}] ∧
  handle_multiple_results true results_not_a_list_payload
  = [VDict {["others" := results_not_a_list_payload]}].
Proof.
  split.
  - rewrite (proj1 (proj2 (handle_multiple_results_dispatch true))
               _ [VStr "a"; VDict {["mail" := VStr "b"]}]);
      vm_compute; reflexivity.
  - rewrite (proj1 (proj2 (proj2 (handle_multiple_results_dispatch true)))
               results_not_a_list_payload).
    + unfold results_not_a_list_payload. vm_compute. reflexivity.
    + split; [done|]. intros d l [= <-]. vm_compute. discriminate.
Defined.

(** What the three branches compute with the flag off: the selected
    records themselves, whatever they are. *)
Lemma records_pass_through_when_auto_map_off :
  (∀ l, handle_multiple_results false (VList l) = l) ∧
  (∀ d l, d !! "results" = Some (VList l) →
          handle_multiple_results false (VDict d) = l) ∧
  (∀ r, single_record r → handle_multiple_results false r = [r]).
Proof.
  split_and!.
  - intros l. rewrite handle_list. apply map_item_off.
  - intros d l Hres. rewrite (handle_wrapped _ _ _ Hres).
    apply map_item_off.
  - intros r Hr. by rewrite handle_single.
Qed.

Lemma records_pass_through_when_auto_map_off_witness :
  handle_multiple_results false
    (VDict {["results" := VList [VInt 7; VDict {["phone" := VStr "1"]}]]})
  = [VInt 7; VDict {["phone" := VStr "1"]}] ∧
  handle_multiple_results false (VInt 7) = [VInt 7].
Proof.
  split.
  - apply (proj1 (proj2 records_pass_through_when_auto_map_off)).
    vm_compute. reflexivity.
  - apply (proj2 (proj2 records_pass_through_when_auto_map_off)).
    split; [done|]. intros d l [=].
Defined.

(** C4, a defect of the code.  With the flag off a record that is not
    a mapping is not wrapped: the scalar payload ["hello"] and the
    scalar element of the list [[7]] come back bare, although the
    function is declared to return a list of dictionaries, the path
    with the flag on wraps the same inputs as [{"raw": ...}], and the
    presentation of such a bare result ends in a [TypeError]. *)
Lemma scalar_not_wrapped_when_auto_map_off :
  handle_multiple_results false (VStr "hello") = [VStr "hello"] ∧
  handle_multiple_results false (VStr "hello")
    ≠ [VDict {["raw" := VStr "hello"]}] ∧
  handle_multiple_results false (VList [VInt 7]) = [VInt 7] ∧
  handle_multiple_results false (VList [VInt 7])
    ≠ [VDict {["raw" := VInt 7]}] ∧
  handle_multiple_results true (VStr "hello")
    = [VDict {["raw" := VStr "hello"]}] ∧
  handle_multiple_results true (VList [VInt 7])
    = [VDict {["raw" := VInt 7]}] ∧
  render_single (handle_multiple_results false (VList [VInt 7])) []
    = (inl TypeError, [UiColumns 2]).
Proof. split_and!; vm_compute; (reflexivity || discriminate). Qed.

(** C10.  The output has as many elements as records were selected,
    possibly none: an empty list, or an empty list under [results],
    gives the empty sequence, while the single-record branch always
    gives one element. *)
Theorem handle_multiple_results_length auto_map :
  (∀ l, length (handle_multiple_results auto_map (VList l)) = length l) ∧
  (∀ d l, d !! "results" = Some (VList l) →
          length (handle_multiple_results auto_map (VDict d)) = length l) ∧
  (∀ r, single_record r →
        length (handle_multiple_results auto_map r) = 1) ∧
  handle_multiple_results auto_map (VList []) = [] ∧
  (∀ d, d !! "results" = Some (VList []) →
        handle_multiple_results auto_map (VDict d) = []).
Proof.
  split_and!.
  - intros l. rewrite handle_list. apply length_map.
  - intros d l Hres. rewrite (handle_wrapped _ _ _ Hres). apply length_map.
  - intros r Hr. by rewrite handle_single.
  - reflexivity.
  - intros d Hres. by rewrite (handle_wrapped _ _ _ Hres).
Qed.

Lemma handle_multiple_results_length_witness :
  handle_multiple_results true wrapped_empty_payload = [] ∧
  length (handle_multiple_results true results_not_a_list_payload) = 1.
Proof.
  split.
  - apply (proj2 (proj2 (proj2 (proj2
             (handle_multiple_results_length true))))).
    vm_compute. reflexivity.
  - apply (proj1 (proj2 (proj2 (handle_multiple_results_length true)))).
    split; [done|]. intros d l [= <-]. vm_compute. discriminate.
Defined.

End normalizer_facts.

(** ** The properties of the Lookup Client *)

Section lookup_facts.
Context (API_KEY : option string) (hash : string → Z).
Context (network :
  list event → string → gmap string value → Z → exn + Response).
Implicit Types (term : string) (timeout : Z) (tr : list event) (e : exn).

Lemma subscript_in_range {A} (l : list A) (i : Z) :
  (0 ≤ i < Z.of_nat (length l))%Z →
  ∃ a, subscript l i = inr a ∧ l !! Z.to_nat i = Some a.
Proof.
  intros Hi. unfold subscript. cbv zeta.
  rewrite (proj2 (Z.ltb_ge i 0)) by lia.
  rewrite (proj2 (Z.ltb_ge i 0)) by lia.
  destruct (l !! Z.to_nat i) as [a|] eqn:Ha; [by exists a|].
  apply lookup_ge_None in Ha. lia.
Qed.

(** [mock_lookup] never raises: the index is within the three samples. *)
Lemma mock_lookup_returns term :
  ∃ record, mock_lookup hash term = inr record ∧
            samples term !! Z.to_nat (hash term `mod` 3) = Some record.
Proof.
  unfold mock_lookup. cbv zeta.
  apply subscript_in_range. cbn [length samples].
  apply Z.mod_pos_bound. lia.
Qed.

Lemma call_api_raises term timeout tr e :
  network tr API_URL (params API_KEY term) timeout = inl e →
  call_api API_KEY network term timeout tr
  = (inl e, (tr ++ [EvGet API_URL (params API_KEY term) timeout])%list).
Proof.
  intros Hnet. unfold call_api, mbind, io_bind, requests_get.
  by rewrite Hnet.
Qed.

Lemma call_api_returns term timeout tr response :
  network tr API_URL (params API_KEY term) timeout = inr response →
  call_api API_KEY network term timeout tr
  = (match json response with
     | JsonParsed parsed => inr (parsed, status_code response)
     | JsonValueError =>
         inr (VDict {["text" := VStr (text response)]},
              status_code response)
     | JsonRaises e => inl e
     end,
     (tr ++ [EvGet API_URL (params API_KEY term) timeout])%list).
Proof.
  intros Hnet. unfold call_api, mbind, io_bind, requests_get.
  rewrite Hnet. by destruct (json response).
Qed.

Lemma fetch_mock term timeout tr record :
  mock_lookup hash term = inr record →
  fetch API_KEY hash network true term timeout tr
  = (inr (VDict record, Some 200%Z), (tr ++ [EvSleep 200])%list).
Proof.
  intros Hmock. unfold fetch, io_try, mbind, io_bind, io_lift, sleep.
  by rewrite Hmock.
Qed.

(** C7.  The lookup block always completes normally, and when the
    request raises, the payload it leaves is [{"error": str(e)}] with,
    as status, the status code of the response attached to the
    exception when there is one and [None] otherwise. *)
Theorem lookup_failure_becomes_error_record term timeout tr :
  (∀ use_mock, ∃ outcome tr',
     fetch API_KEY hash network use_mock term timeout tr
     = (inr outcome, tr')) ∧
  (∀ use_mock auto_map, ∃ outcome tr',
     lookup_action API_KEY hash network use_mock auto_map term timeout tr
     = (inr outcome, tr')) ∧
  (∀ e, network tr API_URL (params API_KEY term) timeout = inl e →
     fetch API_KEY hash network false term timeout tr
     = (inr (VDict {["error" := VStr (str e)]},
             match e with
             | RequestException _ (Some response) =>
                 Some (status_code response)
             | _ => None
             end),
        (tr ++ [EvGet API_URL (params API_KEY term) timeout])%list)).
Proof.
  assert (Hraise : ∀ e,
    network tr API_URL (params API_KEY term) timeout = inl e →
    fetch API_KEY hash network false term timeout tr
    = (inr (VDict {["error" := VStr (str e)]},
            match e with
            | RequestException _ (Some response) =>
                Some (status_code response)
            | _ => None
            end),
       (tr ++ [EvGet API_URL (params API_KEY term) timeout])%list)).
  { intros e He. unfold fetch, io_try, mbind at 1, io_bind at 1.
    unfold mbind at 1, io_bind at 1. rewrite (call_api_raises _ _ _ _ He).
    by destruct e as [message [response|]|message]. }
  assert (Hfetch : ∀ use_mock, ∃ outcome tr',
    fetch API_KEY hash network use_mock term timeout tr
    = (inr outcome, tr')).
  { intros [|].
    - destruct (mock_lookup_returns term) as (record & Hmock & _).
      rewrite (fetch_mock _ _ _ _ Hmock). by eexists _, _.
    - destruct (network tr API_URL (params API_KEY term) timeout)
        as [e|response] eqn:Hnet.
      + rewrite (Hraise e eq_refl). by eexists _, _.
      + unfold fetch, io_try, mbind at 1, io_bind at 1.
        unfold mbind at 1, io_bind at 1.
        rewrite (call_api_returns _ _ _ _ Hnet).
        destruct (json response) as [parsed| |[message other|message]];
          by eexists _, _. }
  split_and!; [done| |done].
  intros use_mock auto_map. unfold lookup_action.
  destruct (String.eqb term ""); [by eexists _, _|].
  destruct (Hfetch use_mock) as ([raw st] & tr' & Hrun).
  unfold mbind, io_bind. rewrite Hrun. by eexists _, _.
Qed.


End lookup_facts.

Lemma lookup_failure_becomes_error_record_witness :
  fetch (Some "secret") (λ _, 0%Z) timing_out_network false "98765" 10 []
  = (inr (VDict {["error" := VStr "Read timed out."]}, None),
     [EvGet API_URL (params (Some "secret") "98765") 10]).
Proof.
  apply (proj2 (proj2 (lookup_failure_becomes_error_record
                         (Some "secret") (λ _, 0%Z) timing_out_network
                         "98765" 10 []))
           (RequestException "Read timed out." None)).
  reflexivity.
Defined.


(** C9.  For a given hash function, that is within one process, the
    mock lookup of a term is one fixed record among the three samples,
    chosen by the hash of the term; the lookup block in mock mode
    returns it with status 200 every time, issues no request and does
    not depend on the remote side. *)
Theorem mock_lookup_is_deterministic (hash : string → Z) (term : string) :
  ∃ record,
    length (samples term) = 3 ∧
    samples term !! Z.to_nat (hash term `mod` 3) = Some record ∧
    mock_lookup hash term = inr record ∧
    (∀ API_KEY network timeout tr,
       fetch API_KEY hash network true term timeout tr
       = (inr (VDict record, Some 200%Z), (tr ++ [EvSleep 200])%list)) ∧
    (∀ API_KEY network timeout tr,
       (first ← fetch API_KEY hash network true term timeout;
        second ← fetch API_KEY hash network true term timeout;
        mret (first, second)) tr
       = (inr ((VDict record, Some 200%Z), (VDict record, Some 200%Z)),
          (tr ++ [EvSleep 200; EvSleep 200])%list)).
Proof.
  destruct (mock_lookup_returns hash term) as (record & Hmock & Hsample).
  exists record. split_and!; try done.
  - intros. by apply fetch_mock.
  - intros API_KEY network timeout tr. unfold mbind at 1, io_bind at 1.
    rewrite (fetch_mock _ _ _ _ _ _ _ Hmock).
    unfold mbind at 1, io_bind at 1.
    rewrite (fetch_mock _ _ _ _ _ _ _ Hmock).
    unfold mret, io_ret. by rewrite <- app_assoc.
Qed.

(** ** Further properties of the Field Mapper *)

Section field_mapper_slots.
Implicit Types (d : gmap string value) (k slot : string) (v : value).
Implicit Types (keys : list string).

Lemma mapping_cases slot keys :
  (slot, keys) ∈ mapping →
  (slot = "name" ∧ keys = ["name"; "fullname"; "user"]) ∨
  (slot = "mobile" ∧ keys = ["mobile"; "phone"; "number"]) ∨
  (slot = "email" ∧ keys = ["email"; "mail"]) ∨
  (slot = "address" ∧ keys = ["address"; "location"]).
Proof.
  unfold mapping. rewrite !elem_of_cons, elem_of_nil.
  intros [[= -> ->]|[[= -> ->]|[[= -> ->]|[[= -> ->]|[]]]]]; tauto.
Qed.

(** Every slot, not only [mobile], holds the result of the scan of its
    own alias list. *)
Lemma auto_map_fields_slot d slot keys :
  (slot, keys) ∈ mapping →
  auto_map_fields (VDict d) !! slot = first_truthy d keys.
Proof.
  intros Hslot. destruct (mapping_cases _ _ Hslot)
    as [[-> ->]|[[-> ->]|[[-> ->]|[-> ->]]]];
    rewrite auto_map_fields_lookup_slot by done;
    rewrite map_slots_lookup; by repeat case_decide.
Qed.

Lemma first_truthy_none_iff d keys :
  first_truthy d keys = None ↔
  ∀ k w, k ∈ keys → d !! k = Some w → truthy w = false.
Proof.
  induction keys as [|k keys IH]; cbn [first_truthy].
  - split; [|done]. intros _ k w Hk. by apply elem_of_nil in Hk.
  - destruct (d !! k) as [w|] eqn:Hk.
    + destruct (truthy w) eqn:Hw.
      * split; [done|]. intros Hall.
        specialize (Hall k w (list_elem_of_here _ _) Hk). congruence.
      * rewrite IH. split.
        -- intros Hall k' w' [->|Hin]%elem_of_cons Hk'; [congruence|].
           by eapply Hall.
        -- intros Hall k' w' Hin. apply Hall. by right.
    + rewrite IH. split.
      * intros Hall k' w' [->|Hin]%elem_of_cons Hk'; [congruence|].
        by eapply Hall.
      * intros Hall k' w' Hin. apply Hall. by right.
Qed.

Lemma first_truthy_app d (pre : list string) keys :
  (∀ k w, k ∈ pre → d !! k = Some w → truthy w = false) →
  first_truthy d (pre ++ keys)%list = first_truthy d keys.
Proof.
  induction pre as [|k pre IH]; intros Hpre; [done|].
  cbn [app first_truthy].
  destruct (d !! k) as [w|] eqn:Hk.
  - rewrite (Hpre k w) by (done || left).
    apply IH. intros k' w' Hin. apply Hpre. by right.
  - apply IH. intros k' w' Hin. apply Hpre. by right.
Qed.

(** X1.  A slot never holds an invented or a falsy value: whatever is
    stored under a slot is the value the input holds under one of the
    aliases of that slot, and that value is truthy. *)
Theorem slot_value_comes_from_an_alias d slot keys v :
  (slot, keys) ∈ mapping →
  auto_map_fields (VDict d) !! slot = Some v →
  ∃ k, k ∈ keys ∧ d !! k = Some v ∧ truthy v = true.
Proof.
  intros Hslot. rewrite (auto_map_fields_slot _ _ _ Hslot).
  apply first_truthy_some.
Qed.

Lemma slot_value_comes_from_an_alias_witness :
  ∃ k, k ∈ ["name"; "fullname"; "user"] ∧
       fullname_and_user_record !! k = Some (VStr "Rahul Kumar") ∧
       truthy (VStr "Rahul Kumar") = true.
Proof.
  apply (slot_value_comes_from_an_alias fullname_and_user_record "name").
  - unfold mapping. left.
  - vm_compute. reflexivity.
Defined.

(** X2.  A slot is left out of the result exactly when none of its
    aliases is present with a truthy value. *)
Theorem slot_absent_iff_no_truthy_alias d slot keys :
  (slot, keys) ∈ mapping →
  auto_map_fields (VDict d) !! slot = None ↔
  ∀ k w, k ∈ keys → d !! k = Some w → truthy w = false.
Proof.
  intros Hslot. rewrite (auto_map_fields_slot _ _ _ Hslot).
  apply first_truthy_none_iff.
Qed.

Lemma slot_absent_iff_no_truthy_alias_witness :
  auto_map_fields (VDict all_falsy_record) !! "mobile" = None ↔
  ∀ k w, k ∈ ["mobile"; "phone"; "number"] →
         all_falsy_record !! k = Some w → truthy w = false.
Proof.
  apply (slot_absent_iff_no_truthy_alias all_falsy_record "mobile").
  unfold mapping. right. left.
Defined.

(** X3.  Priority inside every alias list: an alias that is present
    with a truthy value fills its slot as soon as all the aliases listed
    before it are absent or falsy, whatever the later aliases hold. *)
Theorem first_usable_alias_fills_the_slot d slot (pre : list string) k
    (post : list string) v :
  (slot, (pre ++ k :: post)%list) ∈ mapping →
  (∀ k' w, k' ∈ pre → d !! k' = Some w → truthy w = false) →
  d !! k = Some v → truthy v = true →
  auto_map_fields (VDict d) !! slot = Some v.
Proof.
  intros Hslot Hpre Hk Hv. rewrite (auto_map_fields_slot _ _ _ Hslot).
  rewrite first_truthy_app by done. by apply first_truthy_head.
Qed.

Lemma first_usable_alias_fills_the_slot_witness :
  auto_map_fields (VDict fullname_and_user_record) !! "name"
  = Some (VStr "Rahul Kumar").
Proof.
  apply (first_usable_alias_fills_the_slot fullname_and_user_record
           "name" ["name"] "fullname" ["user"]).
  - unfold mapping. left.
  - intros k' w ->%list_elem_of_singleton. vm_compute. discriminate.
  - vm_compute. reflexivity.
  - reflexivity.
Defined.

Lemma others_is_not_an_alias : "others" ∉ alias_keys.
Proof.
  intros Hin%list_elem_of_In. cbn in Hin. intuition discriminate.
Qed.

Lemma alias_key_cases k :
  k ∈ alias_keys ↔
  k ∈ ["name"; "fullname"; "user"; "mobile"; "phone"; "number";
       "email"; "mail"; "address"; "location"].
Proof. reflexivity. Qed.

Lemma auto_map_fields_lookup_unknown d k :
  k ∉ ["name"; "mobile"; "email"; "address"; "others"] →
  auto_map_fields (VDict d) !! k = None.
Proof.
  rewrite !not_elem_of_cons. intros (? & ? & ? & ? & ? & _).
  rewrite auto_map_fields_lookup_slot by done.
  rewrite map_slots_lookup. by repeat case_decide.
Qed.

Lemma auto_map_fields_keys d k :
  is_Some (auto_map_fields (VDict d) !! k) →
  k ∈ ["name"; "mobile"; "email"; "address"; "others"].
Proof.
  intros Hk.
  destruct (decide (k ∈ ["name"; "mobile"; "email"; "address"; "others"]))
    as [|Hout]; [done|].
  rewrite (auto_map_fields_lookup_unknown _ _ Hout) in Hk.
  by destruct Hk.
Qed.

Lemma others_of_empty_iff d :
  others_of d = ∅ ↔ ∀ k, is_Some (d !! k) → k ∈ alias_keys.
Proof.
  split.
  - intros He k [w Hk].
    destruct (decide (k ∈ alias_keys)) as [|Hout]; [done|].
    assert (Hlook : others_of d !! k = Some w).
    { rewrite others_of_lookup. by rewrite decide_False. }
    by rewrite He, lookup_empty in Hlook.
  - intros Hall. apply map_eq. intros k.
    rewrite others_of_lookup, lookup_empty. case_decide as Hk; [done|].
    destruct (d !! k) as [w|] eqn:Hd; [|done].
    destruct Hk. apply Hall. by eexists.
Qed.

(** X4.  The result has no keys beyond the four slots and [others] for
    a dictionary, and exactly the key [raw], bound to the input, for
    anything else. *)
Theorem canonical_record_keys (data : value) :
  match data with
  | VDict d =>
      ∀ k, is_Some (auto_map_fields data !! k) →
           k ∈ ["name"; "mobile"; "email"; "address"; "others"]
  | _ => auto_map_fields data = {["raw" := data]}
  end.
Proof.
  destruct data as [| | | | | |d]; try reflexivity.
  apply auto_map_fields_keys.
Qed.

(** X5.  When the result has the key [others], its value is a
    dictionary, it is not empty, and each of its entries is an entry of
    the input; the key is missing exactly when every key of the input
    is an alias. *)
Theorem others_is_a_nonempty_part_of_the_input d :
  (∀ v, auto_map_fields (VDict d) !! "others" = Some v →
        ∃ o, v = VDict o ∧ o ≠ ∅ ∧ o ⊆ d) ∧
  (auto_map_fields (VDict d) !! "others" = None ↔
   ∀ k, is_Some (d !! k) → k ∈ alias_keys).
Proof.
  rewrite auto_map_fields_others. split.
  - intros v. case_decide as Hne; [done|]. intros [= <-].
    exists (others_of d). split_and!; [done|done|].
    apply map_filter_subseteq.
  - rewrite <- others_of_empty_iff. by case_decide.
Qed.

Lemma others_is_a_nonempty_part_of_the_input_witness :
  ∃ o, VDict {["city" := VStr "Pune"]} = VDict o ∧ o ≠ ∅ ∧
       o ⊆ phone_and_city_record.
Proof.
  apply (proj1 (others_is_a_nonempty_part_of_the_input
                  phone_and_city_record)).
  vm_compute. reflexivity.
Defined.

Lemma first_truthy_insert_other d keys k v :
  k ∉ keys → first_truthy (<[k := v]> d) keys = first_truthy d keys.
Proof.
  induction keys as [|k' keys IH]; [done|].
  rewrite not_elem_of_cons. intros [Hne Hout]. cbn [first_truthy].
  rewrite lookup_insert_ne by done. by rewrite IH.
Qed.

(** X6.  The four slots do not depend on the unrecognised keys, and the
    [others] entry does not depend on the alias keys: setting a key
    that is not an alias leaves every slot as it was, and setting an
    alias key leaves [others] as it was. *)
Theorem slots_and_others_are_independent d k v :
  (k ∉ alias_keys →
   ∀ slot, slot ≠ "others" →
     auto_map_fields (VDict (<[k := v]> d)) !! slot
     = auto_map_fields (VDict d) !! slot) ∧
  (k ∈ alias_keys →
   auto_map_fields (VDict (<[k := v]> d)) !! "others"
   = auto_map_fields (VDict d) !! "others").
Proof.
  split.
  - intros Hk slot Hslot. rewrite !auto_map_fields_lookup_slot by done.
    rewrite !map_slots_lookup.
    rewrite alias_key_cases, !not_elem_of_cons in Hk.
    repeat case_decide; try done; apply first_truthy_insert_other;
      rewrite !not_elem_of_cons; intuition (by apply not_elem_of_nil).
  - intros Hk. rewrite !auto_map_fields_others.
    assert (others_of (<[k := v]> d) = others_of d) as ->; [|done].
    apply map_eq. intros k'. rewrite !others_of_lookup.
    case_decide; [done|]. apply lookup_insert_ne. congruence.
Qed.

Lemma slots_and_others_are_independent_witness :
  auto_map_fields
    (VDict (<["city" := VStr "Goa"]> fullname_and_user_record)) !! "name"
  = auto_map_fields (VDict fullname_and_user_record) !! "name".
Proof.
  apply (proj1 (slots_and_others_are_independent
                  fullname_and_user_record "city" (VStr "Goa"))).
  - intros Hin%list_elem_of_In. cbn in Hin. intuition discriminate.
  - done.
Defined.

(** X7.  Mapping a result once more keeps the four slots; the result is
    unchanged when it has no [others] entry, and otherwise the former
    [others] value is pushed one level down, under [others] of the new
    [others]. *)
Theorem mapping_a_canonical_record_again d :
  let once := auto_map_fields (VDict d) in
  let twice := auto_map_fields (VDict once) in
  (∀ slot keys, (slot, keys) ∈ mapping → twice !! slot = once !! slot) ∧
  (once !! "others" = None → twice = once) ∧
  (∀ o, once !! "others" = Some o →
        twice !! "others" = Some (VDict {["others" := o]})).
Proof.
  intros once twice.
  assert (Hslots : ∀ slot keys,
    (slot, keys) ∈ mapping → twice !! slot = once !! slot).
  { intros slot keys Hslot. unfold twice.
    rewrite (auto_map_fields_slot _ _ _ Hslot).
    destruct (once !! slot) as [v|] eqn:Hv.
    - assert (Htruthy : truthy v = true).
      { unfold once in Hv. rewrite (auto_map_fields_slot _ _ _ Hslot) in Hv.
        by apply first_truthy_some in Hv as (_ & _ & _ & ?). }
      destruct (mapping_cases _ _ Hslot)
        as [[-> ->]|[[-> ->]|[[-> ->]|[-> ->]]]];
        by apply first_truthy_head.
    - apply first_truthy_none_iff. intros k w Hk Hw.
      assert (Hin : k ∈ ["name"; "mobile"; "email"; "address"; "others"]).
      { apply (auto_map_fields_keys d). by eexists. }
      destruct (mapping_cases _ _ Hslot)
        as [[-> ->]|[[-> ->]|[[-> ->]|[-> ->]]]];
        rewrite !elem_of_cons in Hk; rewrite !elem_of_cons in Hin;
        destruct_or!; subst; try done; try congruence;
        by match goal with H : _ ∈ [] |- _ => apply elem_of_nil in H end. }
  assert (Hothers : others_of once =
    from_option (λ o, {["others" := o]}) ∅ (once !! "others")).
  { apply map_eq. intros k. rewrite others_of_lookup.
    destruct (decide (k = "others")) as [->|Hne].
    - rewrite decide_False by apply others_is_not_an_alias.
      destruct (once !! "others"); cbn; by simplify_map_eq.
    - assert ((from_option (λ o, {["others" := o]})
                 (∅ : gmap string value) (once !! "others")) !! k = None)
        as ->.
      { destruct (once !! "others"); cbn; by simplify_map_eq. }
      case_decide as Hk; [done|].
      apply auto_map_fields_lookup_unknown.
      rewrite alias_key_cases, !not_elem_of_cons in Hk.
      rewrite !not_elem_of_cons. intuition (by apply not_elem_of_nil). }
  split_and!; [done| |].
  - intros Hnone. apply map_eq. intros k.
    destruct (decide (k ∈ ["name"; "mobile"; "email"; "address"; "others"]))
      as [Hin|Hout].
    + rewrite !elem_of_cons, elem_of_nil in Hin.
      destruct Hin as [->|[->|[->|[->|[->|[]]]]]];
        try (eapply Hslots; unfold mapping;
             solve [repeat first [apply list_elem_of_here
                                 |apply list_elem_of_further]]).
      unfold twice. rewrite auto_map_fields_others, Hothers, Hnone. cbn.
      by rewrite decide_True.
    + unfold twice. rewrite (auto_map_fields_lookup_unknown once k Hout).
      symmetry. by apply auto_map_fields_lookup_unknown.
  - intros o Ho. unfold twice.
    rewrite auto_map_fields_others, Hothers, Ho. cbn.
    rewrite decide_False; [done|]. intros He.
    apply (f_equal (λ m : gmap string value, m !! "others")) in He.
    by simplify_map_eq.
Qed.

Lemma mapping_a_canonical_record_again_witness :
  auto_map_fields (VDict (auto_map_fields (VDict canonical_without_others)))
  = auto_map_fields (VDict canonical_without_others).
Proof.
  apply (proj1 (proj2 (mapping_a_canonical_record_again
                         canonical_without_others))).
  vm_compute. reflexivity.
Defined.

(** X8.  A record that only has alias keys, all with falsy values, is
    mapped to the empty record: such entries are stored neither in a
    slot nor under [others]. *)
Theorem falsy_aliases_vanish d :
  (∀ k w, d !! k = Some w → k ∈ alias_keys ∧ truthy w = false) →
  auto_map_fields (VDict d) = ∅.
Proof.
  intros Hall. apply map_eq. intros k. rewrite lookup_empty.
  destruct (decide (k = "others")) as [->|Hne].
  - rewrite auto_map_fields_others. rewrite decide_True; [done|].
    apply others_of_empty_iff. intros k [w Hw]. by destruct (Hall k w Hw).
  - rewrite auto_map_fields_lookup_slot by done.
    rewrite map_slots_lookup.
    repeat case_decide; try done; apply first_truthy_none_iff;
      intros k' w _ Hw; by destruct (Hall k' w Hw).
Qed.

Lemma falsy_aliases_vanish_witness :
  auto_map_fields (VDict all_falsy_record) = ∅.
Proof.
  apply (falsy_aliases_vanish all_falsy_record).
  intros k w Hk. unfold all_falsy_record in Hk.
  apply lookup_insert_Some in Hk as [[<- <-]|[_ Hk]].
  - split; [|reflexivity]. apply list_elem_of_In. cbn. tauto.
  - apply lookup_singleton_Some in Hk as [<- <-].
    split; [|reflexivity]. apply list_elem_of_In. cbn. tauto.
Defined.

End field_mapper_slots.

(** ** Further properties of the Result Normalizer *)

Section normalizer_more.
Implicit Types (d : gmap string value) (l : list value) (r : value).

Lemma handle_on_elements r payload :
  r ∈ handle_multiple_results true payload →
  ∃ item, r = VDict (auto_map_fields item).
Proof.
  assert (Hmap : ∀ l, r ∈ map (map_item true) l →
                      ∃ item, r = VDict (auto_map_fields item)).
  { intros l (item & -> & _)%list_elem_of_fmap. by exists item. }
  assert (Hone : ∀ item, r ∈ [map_item true item] →
                         ∃ item, r = VDict (auto_map_fields item)).
  { intros item ->%list_elem_of_singleton. by exists item. }
  destruct payload as [| | | | |l|d];
    try match goal with
        | |- _ ∈ handle_multiple_results _ ?p → _ => exact (Hone p)
        end.
  - exact (Hmap l).
  - cbn [handle_multiple_results].
    destruct (d !! "results") as [[| | | | |l|]|];
      try exact (Hone (VDict d)).
    exact (Hmap l).
Qed.

(** X9.  With field mapping on, every element of the result is a
    dictionary, and its keys are among the four slots, [others] and
    [raw]. *)
Theorem mapped_results_are_canonical_records payload r :
  r ∈ handle_multiple_results true payload →
  ∃ record, r = VDict record ∧
    ∀ k, is_Some (record !! k) →
         k ∈ ["name"; "mobile"; "email"; "address"; "others"; "raw"].
Proof.
  intros (item & ->)%handle_on_elements.
  exists (auto_map_fields item). split; [done|]. intros k Hk.
  destruct item as [| | | | | |d];
    try (cbn in Hk; apply lookup_singleton_is_Some in Hk as <-;
         rewrite !elem_of_cons; tauto).
  apply auto_map_fields_keys in Hk.
  rewrite !elem_of_cons in Hk. rewrite !elem_of_cons. tauto.
Qed.

Lemma mapped_results_are_canonical_records_witness :
  ∃ record, VDict {["raw" := VInt 7]} = VDict record ∧
    ∀ k, is_Some (record !! k) →
         k ∈ ["name"; "mobile"; "email"; "address"; "others"; "raw"].
Proof.
  apply (mapped_results_are_canonical_records
           (VList [VInt 7; VDict {["phone" := VStr "1"]}])).
  cbn. left.
Defined.

(** X10.  A dictionary that wraps a list under [results] gives what the
    list alone gives: every other entry of the wrapper is ignored, alias
    keys included. *)
Theorem wrapper_entries_are_ignored auto_map d l :
  d !! "results" = Some (VList l) →
  handle_multiple_results auto_map (VDict d)
  = handle_multiple_results auto_map (VList l).
Proof. intros Hres. by rewrite (handle_wrapped _ _ _ Hres). Qed.

Lemma wrapper_entries_are_ignored_witness :
  handle_multiple_results true (VDict wrapped_with_metadata)
  = handle_multiple_results true
      (VList [VDict {["mail" := VStr "a@b.c"]}]).
Proof.
  apply (wrapper_entries_are_ignored true wrapped_with_metadata).
  vm_compute. reflexivity.
Defined.

(** X11.  A dictionary whose [results] entry is not a list is one
    record, and with field mapping on that entry is kept under
    [others]. *)
Theorem results_that_is_not_a_list_is_kept d v :
  d !! "results" = Some v → (∀ l, v ≠ VList l) →
  handle_multiple_results true (VDict d)
  = [VDict (auto_map_fields (VDict d))] ∧
  ∃ o, auto_map_fields (VDict d) !! "others" = Some (VDict o) ∧
       o !! "results" = Some v.
Proof.
  intros Hres Hv. split.
  - apply handle_single. split; [done|].
    intros d' l [= <-]. rewrite Hres. intros [= ->]. by destruct (Hv l).
  - exists (others_of d).
    assert (Hlook : others_of d !! "results" = Some v).
    { rewrite others_of_lookup. rewrite decide_False; [done|].
      intros Hin%list_elem_of_In. cbn in Hin. intuition discriminate. }
    split; [|done]. rewrite auto_map_fields_others.
    rewrite decide_False; [done|]. intros He.
    by rewrite He, lookup_empty in Hlook.
Qed.

Lemma results_that_is_not_a_list_is_kept_witness :
  handle_multiple_results true results_not_a_list_payload
  = [VDict (auto_map_fields results_not_a_list_payload)] ∧
  ∃ o, auto_map_fields results_not_a_list_payload !! "others"
         = Some (VDict o) ∧
       o !! "results" = Some (VStr "none").
Proof.
  apply (results_that_is_not_a_list_is_kept
           {["results" := VStr "none"]} (VStr "none")).
  - vm_compute. reflexivity.
  - done.
Defined.

(** X12.  The result is empty only for an empty list and for a
    dictionary with an empty list under [results]. *)
Theorem empty_result_iff_empty_list auto_map r :
  handle_multiple_results auto_map r = [] ↔
  r = VList [] ∨ ∃ d, r = VDict d ∧ d !! "results" = Some (VList []).
Proof.
  split.
  - destruct r as [| | | | |l|d]; cbn; try done.
    + intros ->%fmap_nil_inv. by left.
    + destruct (d !! "results") as [[| | | | |l|]|] eqn:Hres; try done.
      intros ->%fmap_nil_inv. right. by exists d.
  - intros [->|(d & -> & Hres)]; [done|].
    by rewrite (handle_wrapped _ _ _ Hres).
Qed.

End normalizer_more.

(** ** Further properties of the Lookup Client and of the script *)

Section lookup_more.
Context (API_KEY : option string) (hash : string → Z).
Context (network :
  list event → string → gmap string value → Z → exn + Response).
Implicit Types (term : string) (timeout : Z) (tr : list event) (e : exn).

Lemma fetch_raises term timeout tr e :
  network tr API_URL (params API_KEY term) timeout = inl e →
  fetch API_KEY hash network false term timeout tr
  = (inr (VDict {["error" := VStr (str e)]},
          match e with
          | RequestException _ response => status_code <$> response
          | OtherException _ => None
          end),
     (tr ++ [EvGet API_URL (params API_KEY term) timeout])%list).
Proof.
  intros He. unfold fetch, io_try, mbind at 1, io_bind at 1.
  unfold mbind at 1, io_bind at 1.
  rewrite (call_api_raises _ _ _ _ _ _ He).
  by destruct e as [message response|message].
Qed.

Lemma fetch_returns term timeout tr response :
  network tr API_URL (params API_KEY term) timeout = inr response →
  fetch API_KEY hash network false term timeout tr
  = match json response with
    | JsonParsed parsed =>
        (inr (parsed, Some (status_code response)),
         (tr ++ [EvGet API_URL (params API_KEY term) timeout;
                 EvSleep 200])%list)
    | JsonValueError =>
        (inr (VDict {["text" := VStr (text response)]},
              Some (status_code response)),
         (tr ++ [EvGet API_URL (params API_KEY term) timeout;
                 EvSleep 200])%list)
    | JsonRaises e =>
        (inr (VDict {["error" := VStr (str e)]},
              match e with
              | RequestException _ attached => status_code <$> attached
              | OtherException _ => None
              end),
         (tr ++ [EvGet API_URL (params API_KEY term) timeout])%list)
    end.
Proof.
  intros Hnet. unfold fetch, io_try, mbind at 1, io_bind at 1.
  unfold mbind at 1, io_bind at 1.
  rewrite (call_api_returns _ _ _ _ _ _ Hnet).
  destruct (json response) as [parsed| |[message attached|message]];
    unfold mbind, io_bind, sleep, mret, io_ret;
    by rewrite <- ?app_assoc.
Qed.

(** X13.  [call_api] catches nothing but the [ValueError] of
    [response.json()]: it raises exactly what the request raises, or,
    when the request returned, what [response.json()] raises other than
    a [ValueError]; a body that is merely not JSON never makes it raise.
    Either way exactly one request has been issued, to the fixed URL
    with the key and the term as parameters. *)
Theorem call_api_raises_what_the_request_or_the_parsing_raises
    term timeout tr :
  (∀ e, (call_api API_KEY network term timeout tr).1 = inl e ↔
        network tr API_URL (params API_KEY term) timeout = inl e ∨
        ∃ response,
          network tr API_URL (params API_KEY term) timeout = inr response ∧
          json response = JsonRaises e) ∧
  (∀ response,
     network tr API_URL (params API_KEY term) timeout = inr response →
     json response = JsonValueError →
     (call_api API_KEY network term timeout tr).1
     = inr (VDict {["text" := VStr (text response)]},
            status_code response)) ∧
  (call_api API_KEY network term timeout tr).2
  = (tr ++ [EvGet API_URL (params API_KEY term) timeout])%list.
Proof.
  destruct (network tr API_URL (params API_KEY term) timeout)
    as [e'|response] eqn:Hnet.
  - rewrite (call_api_raises _ _ _ _ _ _ Hnet). cbn. split_and!; [|done|done].
    intros e. split.
    + intros [= ->]. by left.
    + intros [[= ->]|(response & Hresp & _)]; [done|discriminate].
  - rewrite (call_api_returns _ _ _ _ _ _ Hnet). cbn. split_and!; [| |done].
    + intros e. split.
      * destruct (json response) as [parsed| |e'] eqn:Hjson; try done.
        intros [= ->]. right. by exists response.
      * intros [Hget|(response' & [= <-] & ->)]; [discriminate|done].
    + intros response' [= <-] ->. done.
Qed.


(** X25.  When the request returned but [response.json()] raises
    something other than a [ValueError], the lookup block turns that
    exception into the error record as well, without the pause; the
    status is then the one attached to the exception, so for an
    exception that carries no response it is [None] even though the
    response had a status code. *)
Theorem parsing_failure_becomes_error_record term timeout tr response e :
  network tr API_URL (params API_KEY term) timeout = inr response →
  json response = JsonRaises e →
  fetch API_KEY hash network false term timeout tr
  = (inr (VDict {["error" := VStr (str e)]},
          match e with
          | RequestException _ attached => status_code <$> attached
          | OtherException _ => None
          end),
     (tr ++ [EvGet API_URL (params API_KEY term) timeout])%list).
Proof.
  intros Hnet Hjson. rewrite (fetch_returns _ _ _ _ Hnet).
  by rewrite Hjson.
Qed.

Lemma auto_map_fields_unrecognised (d : gmap string value) :
  d ≠ ∅ → (∀ k, k ∈ alias_keys → d !! k = None) →
  auto_map_fields (VDict d) = {["others" := VDict d]}.
Proof.
  intros Hne Habs. unfold auto_map_fields. cbv zeta.
  rewrite others_of_unrecognised, map_slots_unrecognised by done.
  apply truthy_dict_nonempty in Hne. by rewrite Hne.
Qed.

Lemma handle_error_record auto_map message :
  handle_multiple_results auto_map (VDict {["error" := VStr message]})
  = [if auto_map
     then VDict {["others" := VDict {["error" := VStr message]}]}
     else VDict {["error" := VStr message]}].
Proof.
  unfold handle_multiple_results. rewrite lookup_singleton_ne by done.
  unfold map_item. destruct auto_map; [|done].
  rewrite auto_map_fields_unrecognised; [done| |].
  - intros He. apply (f_equal (λ m : gmap string value, m !! "error")) in He.
    by simplify_map_eq.
  - intros k Hk. apply lookup_singleton_ne. intros <-.
    apply list_elem_of_In in Hk. cbn in Hk. intuition discriminate.
Qed.

Lemma lookup_action_run use_mock auto_map term timeout tr :
  ∃ outcome,
    lookup_action API_KEY hash network use_mock auto_map term timeout tr
    = (inr outcome,
       (tr ++ if String.eqb term "" then []
              else if use_mock then [EvSleep 200]
              else EvGet API_URL (params API_KEY term) timeout ::
                   match network tr API_URL (params API_KEY term) timeout
                   with
                   | inr response =>
                       match json response with
                       | JsonRaises _ => []
                       | _ => [EvSleep 200]
                       end
                   | inl _ => []
                   end)%list) ∧
    (outcome = None ↔ term = "").
Proof.
  unfold lookup_action. destruct (String.eqb term "") eqn:Hterm.
  - apply String.eqb_eq in Hterm. exists None.
    by rewrite app_nil_r.
  - apply String.eqb_neq in Hterm.
    unfold mbind, io_bind. destruct use_mock.
    + destruct (mock_lookup_returns hash term) as (record & Hmock & _).
      rewrite (fetch_mock _ _ _ _ _ _ _ Hmock).
      eexists. split; [reflexivity|]. split; [done|]. by intros.
    + destruct (network tr API_URL (params API_KEY term) timeout)
        as [e|response] eqn:Hnet.
      * rewrite (fetch_raises _ _ _ _ Hnet).
        eexists. split; [reflexivity|]. split; [done|]. by intros.
      * rewrite (fetch_returns _ _ _ _ Hnet).
        destruct (json response) as [parsed| |e];
          (eexists; split; [reflexivity|]; split; [done|]; by intros).
Qed.

(** X15.  One lookup action always ends normally and issues at most one
    request: none for an empty term (for which nothing at all happens
    and no result is produced) and none in mock mode; the pause of
    200 ms follows only a lookup that did not raise, neither in the
    request nor in the parsing of the body. *)
Theorem lookup_action_effects use_mock auto_map term timeout tr :
  ∃ outcome evs,
    lookup_action API_KEY hash network use_mock auto_map term timeout tr
    = (inr outcome, (tr ++ evs)%list) ∧
    (outcome = None ↔ term = "") ∧
    (term = "" → evs = []) ∧
    (term ≠ "" → use_mock = true → evs = [EvSleep 200]) ∧
    (term ≠ "" → use_mock = false →
     evs = EvGet API_URL (params API_KEY term) timeout ::
           match network tr API_URL (params API_KEY term) timeout with
           | inr response =>
               match json response with
               | JsonRaises _ => []
               | _ => [EvSleep 200]
               end
           | inl _ => []
           end) ∧
    (length (filter (λ ev, is_get ev = true) evs) ≤ 1)%nat.
Proof.
  destruct (lookup_action_run use_mock auto_map term timeout tr)
    as (outcome & Hrun & Hnone).
  eexists outcome, _. split; [exact Hrun|]. split; [exact Hnone|].
  destruct (String.eqb term "") eqn:Hterm.
  - apply String.eqb_eq in Hterm.
    split_and!; try done; try (intros; congruence). cbn. lia.
  - apply String.eqb_neq in Hterm. destruct use_mock.
    + split_and!; try done; try (intros; congruence).
      rewrite filter_cons, decide_False by done. cbn. lia.
    + destruct (network tr API_URL (params API_KEY term) timeout)
        as [e|response]; [|destruct (json response)];
        split_and!; try done; try (intros; congruence);
        rewrite filter_cons, decide_True by done;
        rewrite ?filter_cons, ?decide_False by done; cbn; lia.
Qed.

(** X16.  After a failed request the lookup action still delivers one
    result: the raw payload is [{"error": str(e)}], and the result list
    holds that record as it is when field mapping is off and moved
    under [others] when it is on. *)
Theorem failed_lookup_yields_one_error_record auto_map term timeout tr e :
  term ≠ "" →
  network tr API_URL (params API_KEY term) timeout = inl e →
  lookup_action API_KEY hash network false auto_map term timeout tr
  = (inr (Some (mkLookupResult
                  [if auto_map
                   then VDict {["others" :=
                                  VDict {["error" := VStr (str e)]}]}
                   else VDict {["error" := VStr (str e)]}]
                  (VDict {["error" := VStr (str e)]})
                  match e with
                  | RequestException _ response => status_code <$> response
                  | OtherException _ => None
                  end)),
     (tr ++ [EvGet API_URL (params API_KEY term) timeout])%list).
Proof.
  intros Hterm Hnet. unfold lookup_action.
  apply String.eqb_neq in Hterm. rewrite Hterm.
  unfold mbind, io_bind. rewrite (fetch_raises _ _ _ _ Hnet).
  unfold mret, io_ret. by rewrite handle_error_record.
Qed.

Lemma sample_shape term (record : gmap string value) :
  record ∈ samples term →
  record !! "mobile" = Some (VStr term) ∧
  record !! "results" = None ∧
  ∃ name, name ≠ "" ∧ record !! "name" = Some (VStr name).
Proof.
  unfold samples. rewrite !elem_of_cons, elem_of_nil.
  intros [->|[->|[->|[]]]]; (split_and!; [done|done|]);
    eexists; (split; [|reflexivity]); done.
Qed.

(** X17.  In mock mode with field mapping on, a lookup of a non-empty
    term delivers exactly one record with status 200 and without any
    request; the record carries the search term as [mobile] and the
    name of the sample, before and after mapping. *)
Theorem mock_lookup_echoes_the_term term timeout tr :
  term ≠ "" →
  ∃ record mapped name,
    lookup_action API_KEY hash network true true term timeout tr
    = (inr (Some (mkLookupResult [VDict mapped] (VDict record)
                    (Some 200%Z))),
       (tr ++ [EvSleep 200])%list) ∧
    record !! "mobile" = Some (VStr term) ∧
    mapped !! "mobile" = Some (VStr term) ∧
    record !! "name" = Some (VStr name) ∧
    mapped !! "name" = Some (VStr name).
Proof.
  intros Hterm.
  destruct (mock_lookup_returns hash term) as (record & Hmock & Hsample).
  apply list_elem_of_lookup_2, sample_shape in Hsample
    as (Hmobile & Hresults & name & Hname & Hrecord).
  exists record, (auto_map_fields (VDict record)), name. split_and!.
  - unfold lookup_action. apply String.eqb_neq in Hterm. rewrite Hterm.
    unfold mbind, io_bind. rewrite (fetch_mock _ _ _ _ _ _ _ Hmock).
    unfold mret, io_ret. unfold handle_multiple_results.
    by rewrite Hresults.
  - done.
  - rewrite auto_map_fields_mobile. apply first_truthy_head; [done|].
    cbn. apply String.eqb_neq in Hterm. by rewrite Hterm.
  - done.
  - rewrite auto_map_fields_lookup_slot by done.
    rewrite map_slots_lookup. rewrite decide_True by done.
    apply first_truthy_head; [done|].
    cbn. apply String.eqb_neq in Hname. by rewrite Hname.
Qed.

(** X18.  A run of the script always ends normally.  It stops at the
    credential check exactly when mock mode is off and the key is unset
    or empty, and then nothing is requested.  Every request it issues
    goes to the fixed URL with the configured timeout and carries a
    non-empty key and the non-empty term. *)
Theorem requests_carry_the_key_and_the_term
    use_mock auto_map lookup term timeout tr :
  ∃ outcome evs,
    script API_KEY hash network use_mock auto_map lookup term timeout tr
    = (inr outcome, (tr ++ evs)%list) ∧
    (outcome = Stopped ↔
     use_mock = false ∧ (API_KEY = None ∨ API_KEY = Some "")) ∧
    (outcome = Stopped → evs = []) ∧
    (∀ ev, ev ∈ evs → is_get ev = true →
       ∃ key, API_KEY = Some key ∧ key ≠ "" ∧ term ≠ "" ∧
              lookup = true ∧ use_mock = false ∧
              ev = EvGet API_URL
                     (<[TERM_PARAM := VStr term]>
                        {[KEY_PARAM := VStr key]}) timeout).
Proof.
  unfold script.
  destruct (credential_missing API_KEY use_mock) eqn:Hmissing.
  - exists Stopped, []. rewrite app_nil_r. split_and!; try done.
    + split; [intros _|done].
      unfold credential_missing in Hmissing.
      apply andb_true_iff in Hmissing as [Hkey ->%negb_true_iff].
      split; [done|]. destruct API_KEY as [key|]; [|by left].
      right. f_equal. apply String.eqb_eq.
      by destruct (String.eqb key "").
    + by intros ev Hev%elem_of_nil.
  - assert (Hkey : use_mock = false →
                   ∃ key, API_KEY = Some key ∧ key ≠ "").
    { intros ->. unfold credential_missing in Hmissing.
      rewrite andb_true_r in Hmissing. apply negb_false_iff in Hmissing.
      destruct API_KEY as [key|]; [|done]. exists key. split; [done|].
      apply String.eqb_neq. by apply negb_true_iff. }
    assert (Hnot : ¬ (use_mock = false ∧
                      (API_KEY = None ∨ API_KEY = Some ""))).
    { intros [Hmock [Hnone|Hempty]];
        destruct (Hkey Hmock) as (key & Heq & Hne); congruence. }
    destruct lookup.
    + destruct (lookup_action_run use_mock auto_map term timeout tr)
        as (result & Hrun & Hnone).
      unfold mbind, io_bind. rewrite Hrun.
      eexists (Finished result), _. split; [reflexivity|].
      split_and!; try done.
      intros ev Hev Hget.
      destruct (String.eqb term "") eqn:Hterm;
        [by apply elem_of_nil in Hev|].
      apply String.eqb_neq in Hterm.
      destruct use_mock;
        [apply list_elem_of_singleton in Hev as ->; discriminate|].
      destruct (Hkey eq_refl) as (key & -> & Hne).
      exists key. split_and!; try done.
      apply elem_of_cons in Hev as [->|Hev]; [done|].
      destruct (network tr API_URL (params (Some key) term) timeout)
        as [e|response]; [|destruct (json response)];
        rewrite ?elem_of_cons, ?elem_of_nil in Hev;
        destruct_or?; subst; try done; discriminate.
    + exists Idle, []. rewrite app_nil_r. split_and!; try done.
      by intros ev Hev%elem_of_nil.
Qed.

End lookup_more.


Lemma failed_lookup_yields_one_error_record_witness :
  lookup_action (Some "secret") (λ _, 0%Z) timing_out_network false true
    "98765" 10 []
  = (inr (Some (mkLookupResult
                  [VDict {["others" :=
                             VDict {["error" := VStr "Read timed out."]}]}]
                  (VDict {["error" := VStr "Read timed out."]})
                  None)),
     [EvGet API_URL (params (Some "secret") "98765") 10]).
Proof.
  apply (failed_lookup_yields_one_error_record (Some "secret") (λ _, 0%Z)
           timing_out_network true "98765" 10 []
           (RequestException "Read timed out." None)).
  - discriminate.
  - reflexivity.
Defined.

Lemma mock_lookup_echoes_the_term_witness :
  ∃ record mapped name,
    lookup_action None (λ _, 5%Z) timing_out_network true true
      "98765" 10 []
    = (inr (Some (mkLookupResult [VDict mapped] (VDict record)
                    (Some 200%Z))),
       [EvSleep 200]) ∧
    record !! "mobile" = Some (VStr "98765") ∧
    mapped !! "mobile" = Some (VStr "98765") ∧
    record !! "name" = Some (VStr name) ∧
    mapped !! "name" = Some (VStr name).
Proof.
  apply (mock_lookup_echoes_the_term None (λ _, 5%Z) timing_out_network
           "98765" 10 []).
  discriminate.
Defined.

(** ** Properties of the presentation of a single result *)

Section rendering_facts.
Implicit Types (record : gmap string value) (display : value).
Implicit Types (results : list value) (shown : list ui_event).

Lemma render_single_record record results shown :
  render_single (VDict record :: results) shown
  = (inr tt,
     (shown ++ UiColumns 2 ::
        option_list (UiCard 0 "name" <$> record !! "name") ++
        option_list (UiCard 1 "mobile" <$> record !! "mobile") ++
        option_list (UiCard 0 "email" <$> record !! "email") ++
        option_list (UiCard 1 "address" <$> record !! "address") ++
        from_option (λ others, [UiMore; UiJson others]) []
          (record !! "others"))%list).
Proof.
  unfold render_single, render_cards, render_more.
  unfold mbind, ui_bind, ui_lift, emit, mret, ui_ret, contains, get, getitem.
  destruct (record !! "name"), (record !! "mobile"), (record !! "email"),
    (record !! "address"), (record !! "others");
    cbn; rewrite <- ?app_assoc; reflexivity.
Qed.

(** X19.  A dictionary is always presented without error: after the
    two columns come the cards of the slots it has, in the order name,
    mobile, email, address, with name and email in the first column and
    mobile and address in the second, each with the value of the
    record, and then the [others] value under "More" when the record
    has one. *)
Theorem a_record_is_presented_slot_by_slot record results shown :
  render_single (VDict record :: results) shown
  = (inr tt,
     (shown ++ UiColumns 2 ::
        option_list (UiCard 0 "name" <$> record !! "name") ++
        option_list (UiCard 1 "mobile" <$> record !! "mobile") ++
        option_list (UiCard 0 "email" <$> record !! "email") ++
        option_list (UiCard 1 "address" <$> record !! "address") ++
        from_option (λ others, [UiMore; UiJson others]) []
          (record !! "others"))%list) ∧
  ∀ key val, key ∉ ["name"; "mobile"; "email"; "address"; "others"] →
    (render_single (VDict (<[key := val]> record) :: results) shown).2
    = (render_single (VDict record :: results) shown).2.
Proof.
  split; [apply render_single_record|].
  intros key val Hkey. rewrite !not_elem_of_cons in Hkey.
  destruct Hkey as (? & ? & ? & ? & ? & _).
  rewrite !render_single_record. cbn [snd].
  by rewrite !lookup_insert_ne by done.
Qed.

Lemma render_single_errors display results shown :
  (render_single (display :: results) shown).1 = inr tt ∨
  (render_single (display :: results) shown).1 = inl TypeError ∨
  (render_single (display :: results) shown).1 = inl AttributeError.
Proof.
  destruct display as [| | | |s|l|record]; try by (right; left).
  - unfold render_single, render_cards, render_more.
    unfold mbind, ui_bind, ui_lift, emit, mret, ui_ret, contains, get,
      getitem.
    destruct (String.index 0 "name" s); [by right; right|].
    destruct (String.index 0 "mobile" s); [by right; right|].
    destruct (String.index 0 "email" s); [by right; right|].
    destruct (String.index 0 "address" s); [by right; right|].
    destruct (String.index 0 "others" s); [by right; left|by left].
  - unfold render_single, render_cards, render_more.
    unfold mbind, ui_bind, ui_lift, emit, mret, ui_ret, contains, get,
      getitem.
    repeat match goal with
           | |- context [existsb ?f l] => destruct (existsb f l)
           end; cbn; tauto.
  - left. by rewrite render_single_record.
Qed.

(** X20.  The single-result branch ends in an [IndexError] exactly when
    no record was selected, that is for an empty list and for an empty
    list under [results]; the branch is then the one taken, and the
    error comes from [results[0]], before anything is shown. *)
Theorem index_error_iff_nothing_selected auto_map payload shown :
  ((render_single (handle_multiple_results auto_map payload) shown).1
   = inl IndexError ↔
   payload = VList [] ∨
   ∃ d, payload = VDict d ∧ d !! "results" = Some (VList [])) ∧
  (handle_multiple_results auto_map payload = [] →
   multiple (handle_multiple_results auto_map payload) = false ∧
   render_single (handle_multiple_results auto_map payload) shown
   = (inl IndexError, shown)).
Proof.
  split; [|by intros ->].
  destruct (handle_multiple_results auto_map payload) as [|r results]
    eqn:Hres.
  - split; [intros _|done]. revert Hres.
    destruct payload as [| | | | |l|d]; cbn; try done.
    + intros ->%fmap_nil_inv. by left.
    + destruct (d !! "results") as [[| | | | |l|]|] eqn:Hd; try done.
      intros ->%fmap_nil_inv. right. by exists d.
  - split.
    + intros Herr.
      destruct (render_single_errors r results shown) as [H|[H|H]];
        congruence.
    + intros [->|(d & -> & Hd)]; [done|].
      by rewrite (handle_wrapped _ _ _ Hd) in Hres.
Qed.

(** X21.  With field mapping on, the presentation of the first result
    fails only in that case: whenever at least one record was selected,
    it ends normally. *)
Theorem mapped_results_are_presented_without_error payload shown :
  handle_multiple_results true payload ≠ [] →
  (render_single (handle_multiple_results true payload) shown).1 = inr tt.
Proof.
  intros Hne.
  destruct (handle_multiple_results true payload) as [|r results] eqn:Hres;
    [done|].
  destruct (handle_on_elements r payload) as [item ->].
  { rewrite Hres. left. }
  by rewrite render_single_record.
Qed.

Lemma mapped_results_are_presented_without_error_witness :
  (render_single (handle_multiple_results true (VStr "hello")) []).1
  = inr tt.
Proof.
  apply (mapped_results_are_presented_without_error (VStr "hello") []).
  vm_compute. discriminate.
Defined.

(** X22.  A first result that is [None], a boolean or a number (which
    is possible only with field mapping off) makes the presentation end
    in a [TypeError] at the first [key in display], after the columns
    were created. *)
Theorem scalar_result_raises_type_error display results shown :
  match display with
  | VNone | VBool _ | VInt _ | VFloat _ => True
  | _ => False
  end →
  render_single (display :: results) shown
  = (inl TypeError, (shown ++ [UiColumns 2])%list).
Proof. by destruct display. Qed.

Lemma scalar_result_raises_type_error_witness :
  render_single (handle_multiple_results false (VInt 404)) []
  = (inl TypeError, [UiColumns 2]).
Proof.
  apply (scalar_result_raises_type_error (VInt 404) [] []). exact I.
Defined.

(** X24.  Whatever the results are, the branch never ends in a
    [KeyError]: [display["others"]] is only evaluated for a dictionary
    that has the key. *)
Theorem presentation_never_raises_key_error results shown :
  (render_single results shown).1 ≠ inl KeyError.
Proof.
  destruct results as [|display results]; [done|].
  destruct (render_single_errors display results shown) as [H|[H|H]];
    congruence.
Qed.

(** X23.  A first result that is a string (again only with field
    mapping off) is presented without error exactly when none of the
    words name, mobile, email, address and others occurs in it, and
    then only the two columns are shown. *)
Theorem string_result_is_presented_iff_no_slot_word s results shown :
  ((render_single (VStr s :: results) shown).1 = inr tt ↔
   ∀ word, word ∈ ["name"; "mobile"; "email"; "address"; "others"] →
           String.index 0 word s = None) ∧
  ((render_single (VStr s :: results) shown).1 = inr tt →
   (render_single (VStr s :: results) shown).2
   = (shown ++ [UiColumns 2])%list).
Proof.
  unfold render_single, render_cards, render_more.
  unfold mbind, ui_bind, ui_lift, emit, mret, ui_ret, contains, get, getitem.
  destruct (String.index 0 "name" s) eqn:Hname;
    [split; [split; [done|]|done];
     intros Hall; rewrite Hall in Hname; [done|set_solver]|].
  destruct (String.index 0 "mobile" s) eqn:Hmobile;
    [split; [split; [done|]|done];
     intros Hall; rewrite Hall in Hmobile; [done|set_solver]|].
  destruct (String.index 0 "email" s) eqn:Hemail;
    [split; [split; [done|]|done];
     intros Hall; rewrite Hall in Hemail; [done|set_solver]|].
  destruct (String.index 0 "address" s) eqn:Haddress;
    [split; [split; [done|]|done];
     intros Hall; rewrite Hall in Haddress; [done|set_solver]|].
  destruct (String.index 0 "others" s) eqn:Hothers;
    [split; [split; [done|]|done];
     intros Hall; rewrite Hall in Hothers; [done|set_solver]|].
  split; [|done]. split; [|done]. intros _ word.
  rewrite !elem_of_cons, elem_of_nil.
  intros [->|[->|[->|[->|[->|[]]]]]]; done.
Qed.

End rendering_facts.

(** ** Instances of the properties above on concrete inputs *)

Lemma canonical_record_keys_witness :
  "mobile" ∈ ["name"; "mobile"; "email"; "address"; "others"].
Proof.
  apply (canonical_record_keys (VDict phone_and_city_record) "mobile").
  vm_compute. by eexists.
Defined.

Lemma empty_result_iff_empty_list_witness :
  handle_multiple_results true wrapped_empty_payload = [].
Proof.
  apply (proj2 (empty_result_iff_empty_list true wrapped_empty_payload)).
  right. eexists. split; [reflexivity|]. vm_compute. reflexivity.
Defined.

Lemma call_api_raises_what_the_request_or_the_parsing_raises_witness :
  (call_api None timing_out_network "98765" 10 []).1
  = inl (RequestException "Read timed out." None) ∧
  (call_api None deeply_nested_network "98765" 10 []).1
  = inl (OtherException "maximum recursion depth exceeded") ∧
  (call_api None html_network "98765" 10 []).1
  = inr (VDict {["text" := VStr "<html>Bad Gateway</html>"]}, 502%Z).
Proof.
  split_and!.
  - apply (proj2 (proj1 (call_api_raises_what_the_request_or_the_parsing_raises
                           None timing_out_network "98765" 10 [])
                    (RequestException "Read timed out." None))).
    left. reflexivity.
  - apply (proj2 (proj1 (call_api_raises_what_the_request_or_the_parsing_raises
                           None deeply_nested_network "98765" 10 [])
                    (OtherException "maximum recursion depth exceeded"))).
    right. exists deeply_nested_response. split; reflexivity.
  - apply (proj1 (proj2 (call_api_raises_what_the_request_or_the_parsing_raises
                           None html_network "98765" 10 []))
             bad_gateway_response); reflexivity.
Defined.

Lemma lookup_action_effects_witness :
  ∃ outcome evs,
    lookup_action None (λ _, 0%Z) timing_out_network false true "" 10 []
    = (inr outcome, ([] ++ evs)%list) ∧
    outcome = None ∧ evs = [].
Proof.
  destruct (lookup_action_effects None (λ _, 0%Z) timing_out_network
              false true "" 10 [])
    as (outcome & evs & Hrun & Hnone & Hempty & _).
  exists outcome, evs. split_and!; [exact Hrun| |].
  - apply Hnone. reflexivity.
  - apply Hempty. reflexivity.
Defined.

Lemma requests_carry_the_key_and_the_term_witness :
  ∃ evs,
    script None (λ _, 0%Z) timing_out_network false true true "98765" 10 []
    = (inr Stopped, ([] ++ evs)%list) ∧
    evs = [].
Proof.
  destruct (requests_carry_the_key_and_the_term None (λ _, 0%Z)
              timing_out_network false true true "98765" 10 [])
    as (outcome & evs & Hrun & Hiff & Hstop & _).
  assert (Hout : outcome = Stopped).
  { apply Hiff. split; [reflexivity|]. left. reflexivity. }
  exists evs. split; [by rewrite <- Hout|]. by apply Hstop.
Defined.

Lemma a_record_is_presented_slot_by_slot_witness :
  (render_single
     [VDict (<["city" := VStr "Pune"]> canonical_without_others)] []).2
  = (render_single [VDict canonical_without_others] []).2.
Proof.
  apply (proj2 (a_record_is_presented_slot_by_slot
                  canonical_without_others [] [])).
  intros Hin%list_elem_of_In. cbn in Hin. intuition discriminate.
Defined.

Lemma index_error_iff_nothing_selected_witness :
  multiple (handle_multiple_results true wrapped_empty_payload) = false ∧
  render_single (handle_multiple_results true wrapped_empty_payload) []
  = (inl IndexError, []).
Proof.
  apply (proj2 (index_error_iff_nothing_selected
                  true wrapped_empty_payload [])).
  vm_compute. reflexivity.
Defined.

Lemma string_result_is_presented_iff_no_slot_word_witness :
  (render_single [VStr "hello"] []).1 = inr tt.
Proof.
  apply (proj2 (proj1 (string_result_is_presented_iff_no_slot_word
                         "hello" [] []))).
  intros word. rewrite !elem_of_cons, elem_of_nil.
  intros [->|[->|[->|[->|[->|[]]]]]]; reflexivity.
Defined.

Lemma presentation_never_raises_key_error_witness :
  (render_single [VStr "the others"] []).1 ≠ inl KeyError.
Proof.
  apply (presentation_never_raises_key_error [VStr "the others"] []).
Defined.

Lemma parsing_failure_becomes_error_record_witness :
  fetch None (λ _, 0%Z) deeply_nested_network false "98765" 10 []
  = (inr (VDict {["error" := VStr "maximum recursion depth exceeded"]},
          None),
     [EvGet API_URL (params None "98765") 10]).
Proof.
  apply (parsing_failure_becomes_error_record None (λ _, 0%Z)
           deeply_nested_network "98765" 10 [] deeply_nested_response
           (OtherException "maximum recursion depth exceeded"));
    reflexivity.
Defined.
